(** * jobpool/worker.go: the worker's process-one-job protocol

    A shallow embedding of [worker.process] and [worker.run] and the
    properties of the retry / terminal-state policy they implement.

    Conventions of the embedding.
    - Go's [int] and [int64] are integers in [Z] with the 64-bit
      two's-complement wrap-around written out ([wrap64]); [int] is taken at
      its 64-bit width.
    - A pointer to a [Job] is passed around as the value of the record it
      points to; a handler, which receives the pointer and may write through
      it, returns the record as it left it.  The store's [Update] persists
      the record it is handed and leaves it as it is.
    - The collaborators reached through [w.m] (topic map, in-flight counters,
      store, backoff policy, logger, test hooks) and the wall clock are the
      fields of one explicit [World] that every operation threads.
    - The mutex [w.m.mu] protects two short critical sections; one worker is
      modelled, so each critical section is one atomic step. *)

From Stdlib Require Import ZArith QArith Qpower Lia List.
From stdpp Require Import base strings gmap.

Close Scope Q_scope.
Local Open Scope Z_scope.

(** ** Machine integers *)

Definition int64_min : Z := - 2 ^ 63.
Definition int64_max : Z := 2 ^ 63 - 1.

Definition in_int64 (z : Z) : Prop := int64_min <= z <= int64_max.

(** The value an int64 (or 64-bit int) operation stores for the
    mathematical result [z]. *)
Definition wrap64 (z : Z) : Z := (z + 2 ^ 63) mod 2 ^ 64 - 2 ^ 63.

(** ** The float64 detour of the exponential backoff

    [int64(math.Pow(2, float64(job.Retry-1)))] goes through three steps. *)

(** [float64(n)] for an integer [n]: exact below 2^53 in magnitude, otherwise
    rounded to 53 significant bits, ties to even.  The result is again an
    integer, which is how it is represented. *)
Definition float64_of_int (n : Z) : Z :=
  let a := Z.abs n in
  if a <? 2 ^ 53 then n
  else
    let k := Z.log2 a - 52 in
    let q := a / 2 ^ k in
    let r := a mod 2 ^ k in
    let half := 2 ^ (k - 1) in
    let q' := if r <? half then q
              else if half <? r then q + 1
              else if Z.even q then q else q + 1 in
    Z.sgn n * (q' * 2 ^ k).

(** The float64 values [math.Pow(2, y)] takes at an integer-valued [y]: an
    exact power of two while it is representable (down to the smallest
    subnormal 2^-1074, up to 2^1023), zero below, +Inf above. *)
Inductive float64 : Type :=
  | FZero
  | FPow2 (e : Z)
  | FInf.

Definition math_Pow2 (y : Z) : float64 :=
  if y <? -1074 then FZero
  else if 1023 <? y then FInf
  else FPow2 y.

(** ** Job records *)

(** Modelled from the spec: the declaration of the state constants is not
    part of worker.go; section 3 of the specification gives the three
    values of [State]. *)
Inductive JobState : Type := Waiting | Succeeded | Failed.

Definition error : Type := string.

(** Modelled from the spec: the declaration of [Job] is not part of
    worker.go; these are the attributes of section 3 of the specification,
    with the Go types worker.go uses them at ([Retry], [MaxRetry] and [Rank]
    are [int]; [RetryWait], [After], [Priority] and [Completed] are [int64];
    a field left unset holds Go's zero value). *)
Record Job : Type := mkJob {
  ID : string;
  Topic : string;
  Rank : Z;
  State : JobState;
  Retry : Z;
  MaxRetry : Z;
  RetryBackoff : string;
  RetryWait : Z;
  After : Z;
  Priority : Z;
  Completed : Z
}.

Definition set_State (s : JobState) (j : Job) : Job :=
  mkJob (ID j) (Topic j) (Rank j) s (Retry j) (MaxRetry j) (RetryBackoff j)
        (RetryWait j) (After j) (Priority j) (Completed j).

Definition set_Retry (r : Z) (j : Job) : Job :=
  mkJob (ID j) (Topic j) (Rank j) (State j) r (MaxRetry j) (RetryBackoff j)
        (RetryWait j) (After j) (Priority j) (Completed j).

Definition set_After (a : Z) (j : Job) : Job :=
  mkJob (ID j) (Topic j) (Rank j) (State j) (Retry j) (MaxRetry j)
        (RetryBackoff j) (RetryWait j) a (Priority j) (Completed j).

Definition set_Priority (p : Z) (j : Job) : Job :=
  mkJob (ID j) (Topic j) (Rank j) (State j) (Retry j) (MaxRetry j)
        (RetryBackoff j) (RetryWait j) (After j) p (Completed j).

Definition set_Completed (c : Z) (j : Job) : Job :=
  mkJob (ID j) (Topic j) (Rank j) (State j) (Retry j) (MaxRetry j)
        (RetryBackoff j) (RetryWait j) (After j) (Priority j) c.

(** A handler registered for a topic, [func(job *Job) error]: it receives the
    pointer, so it returns the record as it left it next to its error. *)
Definition Processor : Type := Job -> Job * option error.

(** ** What the worker does to its surroundings *)

(** The three log lines of worker.go, by their format string. *)
Inductive LogLine : Type :=
  | LogJobFailed (id : string) (err : error)
      (* "jobqueue: job %v failed: %v" *)
  | LogFailedAfter (id : string) (tries : Z) (err : error)
      (* "jobqueue: Job %v failed after %d retries: %v" *)
  | LogFailedOnTry (id : string) (try max : Z) (err : error).
      (* "jobqueue: Job %v failed on try %d of %d: %v" *)

(** The four testing hooks. *)
Inductive Hook : Type := JobStarted | JobFailed | JobRetry | JobSucceeded.

Inductive Event : Type :=
  | EvLog (l : LogLine)
  | EvHook (h : Hook)
  | EvInvoke (j : Job)      (* p(job), with the record handed over *)
  | EvUpdate (j : Job).     (* w.m.st.Update(ctx, job), with the record persisted *)

(** Modelled from the spec: the durable store is an interface declared
    outside worker.go; section 6 of the specification gives its one method,
    which persists the current state of the record and may fail. *)
Class Store (S : Type) : Type := {
  Update : S -> Job -> S * option error
}.

(** time.Time as the number of nanoseconds since the Unix epoch. *)
Definition Time_Add (t d : Z) : Z := t + d.
Definition Time_UnixNano (t : Z) : Z := wrap64 t.

Definition no_processor (topic : string) : error :=
  String.append "no processor found for topic " topic.

(** ** The worker *)

Section Worker.

Context {StoreT : Type} `{Store StoreT}.

(** What [int64(f)] yields for a float64 outside the int64 range (2^63 and
    above, +Inf).  Go leaves it to the implementation. *)
Variable int64_of_huge : Z.

Definition int64_of_float64 (f : float64) : Z :=
  match f with
  | FZero => 0
  | FPow2 e => if e <? 0 then 0          (* 0 < 2^e < 1 truncates to 0 *)
               else if e <? 63 then 2 ^ e
               else int64_of_huge
  | FInf => int64_of_huge
  end.

(** Modelled from the spec: the declaration of [Manager] is not part of
    worker.go; these are the collaborators of section 6 of the
    specification that [worker.process] and [worker.run] reach through
    [w.m], next to the wall clock: the [n]-th call of [time.Now()] reads
    [clock n], and [trace] holds the log lines, hook calls, handler
    invocations and store updates made so far, newest first. *)
Record World : Type := mkWorld {
  tm : gmap string Processor;
  working : gmap Z Z;
  st : StoreT;
  backoff : Z -> Z;
  workersWg : Z;
  trace : list Event;
  clock : nat -> Z;
  ticks : nat
}.

Definition M (A : Type) : Type := World -> A * World.

Definition ret {A : Type} (a : A) : M A := fun w => (a, w).

Definition bind {A B : Type} (c : M A) (k : A -> M B) : M B :=
  fun w => k (fst (c w)) (snd (c w)).

Notation "x <~ c1 ;;; c2" := (bind c1 (fun x => c2))
  (at level 100, c1 at next level, right associativity).
Notation "c1 ;;; c2" := (bind c1 (fun _ => c2))
  (at level 100, right associativity).

Definition emit (e : Event) : M unit := fun w =>
  (tt, mkWorld (tm w) (working w) (st w) (backoff w) (workersWg w)
               (e :: trace w) (clock w) (ticks w)).

Definition logger_Printf (l : LogLine) : M unit := emit (EvLog l).
Definition testJobStarted : M unit := emit (EvHook JobStarted).
Definition testJobFailed : M unit := emit (EvHook JobFailed).
Definition testJobRetry : M unit := emit (EvHook JobRetry).
Definition testJobSucceeded : M unit := emit (EvHook JobSucceeded).

Definition time_Now : M Z := fun w =>
  (clock w (ticks w),
   mkWorld (tm w) (working w) (st w) (backoff w) (workersWg w)
           (trace w) (clock w) (S (ticks w))).

(** [w.m.tm[job.Topic]], under the lock. *)
Definition find_topic (topic : string) : M (option Processor) := fun w =>
  (tm w !! topic, w).

Definition get_backoff (retry : Z) : M Z := fun w => (backoff w retry, w).

(** [p(job)]. *)
Definition invoke (p : Processor) (job : Job) : M (Job * option error) :=
  emit (EvInvoke job) ;;; ret (p job).

(** [w.m.st.Update(context.Background(), job)]. *)
Definition st_Update (job : Job) : M (option error) := fun w =>
  (snd (Update (st w) job),
   mkWorld (tm w) (working w) (fst (Update (st w) job)) (backoff w)
           (workersWg w) (EvUpdate job :: trace w) (clock w) (ticks w)).

(** [working[rank]--] on a [map[int]int]: a rank missing from the map
    reads as 0, and the decremented value is stored. *)
Definition released (rank : Z) (wk : gmap Z Z) : gmap Z Z :=
  <[rank := wrap64 (default 0 (wk !! rank) - 1)]> wk.

(** The deferred function: [w.m.working[job.Rank]--] under the lock. *)
Definition release (job : Job) : M unit := fun w =>
  (tt, mkWorld (tm w) (released (Rank job) (working w))
               (st w) (backoff w) (workersWg w) (trace w) (clock w) (ticks w)).

(** The wait of the exponential strategy,
    [job.RetryWait*int64(math.Pow(2, float64(job.Retry-1)))]. *)
Definition exponential_wait (job : Job) : Z :=
  wrap64 (RetryWait job *
          int64_of_float64
            (math_Pow2 (float64_of_int (wrap64 (Retry job - 1))))).

(** The body of [process], up to its [return]. *)
Definition process_body (job : Job) : M (Job * option error) :=
  (* Find the topic *)
  found <~ find_topic (Topic job) ;;;
  match found with
  | None => ret (job, Some (no_processor (Topic job)))
  | Some p =>
    testJobStarted ;;;
    (* Execute the job *)
    r <~ invoke p job ;;;
    let job := fst r in
    match snd r with
    | Some err =>
      if MaxRetry job <=? Retry job then
        (* Failed *)
        logger_Printf (LogFailedAfter (ID job) (wrap64 (Retry job + 1)) err) ;;;
        testJobFailed ;;;
        let job := set_State Failed job in
        now <~ time_Now ;;;
        let job := set_Completed (Time_UnixNano now) job in
        uerr <~ st_Update job ;;;
        ret (job, uerr)
      else
        (* Retry *)
        logger_Printf (LogFailedOnTry (ID job) (wrap64 (Retry job + 1))
                                      (MaxRetry job) err) ;;;
        testJobRetry ;;;
        job <~ (if String.eqb (RetryBackoff job) "exponential" then
                  now <~ time_Now ;;;
                  ret (set_After (wrap64 (Time_UnixNano now + exponential_wait job)) job)
                else
                  now <~ time_Now ;;;
                  ret (set_After (wrap64 (Time_UnixNano now + RetryWait job)) job)) ;;;
        now <~ time_Now ;;;
        d <~ get_backoff (Retry job) ;;;
        let job := set_Priority (wrap64 (- Time_UnixNano (Time_Add now d))) job in
        let job := set_State Waiting job in
        let job := set_Retry (wrap64 (Retry job + 1)) job in
        uerr <~ st_Update job ;;;
        ret (job, uerr)
    | None =>
      (* Successfully executed the job *)
      let job := set_State Succeeded job in
      now <~ time_Now ;;;
      let job := set_Completed (Time_UnixNano now) job in
      uerr <~ st_Update job ;;;
      match uerr with
      | Some err => ret (job, Some err)
      | None => testJobSucceeded ;;; ret (job, None)
      end
    end
  end.

(** [process] runs a single job: the body, then the deferred decrement,
    which reads [job.Rank] when it runs. *)
Definition process (job : Job) : M (Job * option error) :=
  r <~ process_body job ;;;
  release (fst r) ;;;
  ret r.

(** [workersWg.Done()]. *)
Definition workersWg_Done : M unit := fun w =>
  (tt, mkWorld (tm w) (working w) (st w) (backoff w) (workersWg w - 1)
               (trace w) (clock w) (ticks w)).

(** The loop of [run] over the jobs the channel delivers to this worker;
    it returns the records as [process] left them. *)
Fixpoint run_loop (jobc : list Job) : M (list Job) :=
  match jobc with
  | [] => ret []
  | job :: rest =>
    r <~ process job ;;;
    match snd r with
    | Some err => logger_Printf (LogJobFailed (ID (fst r)) err)
    | None => ret tt
    end ;;;
    jobs <~ run_loop rest ;;;
    ret (fst r :: jobs)
  end.

Definition run (jobc : list Job) : M (list Job) :=
  jobs <~ run_loop jobc ;;;
  workersWg_Done ;;;
  ret jobs.

(** The wait the retry branch of [process] adds to the current time, by
    the strategy the record selects. *)
Definition added_wait (job : Job) : Z :=
  if String.eqb (RetryBackoff job) "exponential"
  then exponential_wait job
  else RetryWait job.

End Worker.

(** ** Reading a trace *)

(** The records handed to the store's [Update], newest first. *)
Fixpoint updates (t : list Event) : list Job :=
  match t with
  | [] => []
  | EvUpdate j :: t' => j :: updates t'
  | _ :: t' => updates t'
  end.

(** The records handed to a handler, newest first. *)
Fixpoint invocations (t : list Event) : list Job :=
  match t with
  | [] => []
  | EvInvoke j :: t' => j :: invocations t'
  | _ :: t' => invocations t'
  end.

Definition Hook_eqb (a b : Hook) : bool :=
  match a, b with
  | JobStarted, JobStarted | JobFailed, JobFailed
  | JobRetry, JobRetry | JobSucceeded, JobSucceeded => true
  | _, _ => false
  end.

(** How often the hook [h] was called. *)
Fixpoint signals (h : Hook) (t : list Event) : nat :=
  match t with
  | [] => O
  | EvHook h' :: t' => if Hook_eqb h h' then S (signals h t') else signals h t'
  | _ :: t' => signals h t'
  end.

(** The log lines written, newest first. *)
Fixpoint logged (t : list Event) : list LogLine :=
  match t with
  | [] => []
  | EvLog l :: t' => l :: logged t'
  | _ :: t' => logged t'
  end.

(** ** The specification's exponential wait

    Section 8 of the specification gives the added wait as [W * 2^(r-1)], a
    rational number when [r = 0]. *)
Definition spec_exponential_wait (W r : Z) : Q :=
  Qmult (inject_Z W) (Qpower (inject_Z 2) (r - 1)).

(** ** Concrete collaborators *)

(** A store that keeps the last record persisted under each ID. *)
Definition MemStore : Type := gmap string Job.

#[global] Instance mem_store : Store MemStore :=
  {| Update := fun s j => (<[ID j := j]> s, None) |}.

(** A store whose every [Update] fails. *)
Inductive DownStore : Type := Down.

#[global] Instance down_store : Store DownStore :=
  {| Update := fun s j => (s, Some "store is down"%string) |}.

Definition handler_ok : Processor := fun j => (j, None).
Definition handler_fails : Processor := fun j => (j, Some "boom"%string).

(** amd64 converts a float64 outside the int64 range to the smallest int64. *)
Definition amd64_huge : Z := int64_min.

Definition sample_clock (n : nat) : Z := 1700000000000000000 + Z.of_nat n.

Definition sample_world {StoreT : Type} (s : StoreT) (handlers : gmap string Processor)
  : @World StoreT :=
  mkWorld handlers {[ 1 := 2 ]} s (fun _ => 5000) 1 [] sample_clock 0.

Definition sample_job (retry maxRetry : Z) (strategy : string) (wait : Z) : Job :=
  mkJob "job-1" "send-email" 1 Waiting retry maxRetry strategy wait 0 0 0.

Definition failing_handlers : gmap string Processor :=
  {[ "send-email"%string := handler_fails ]}.

Definition working_handlers : gmap string Processor :=
  {[ "send-email"%string := handler_ok ]}.

Definition world_failing : @World MemStore := sample_world ∅ failing_handlers.
Definition world_working : @World MemStore := sample_world ∅ working_handlers.
Definition world_no_handlers : @World MemStore := sample_world ∅ ∅.
Definition world_store_down : @World DownStore := sample_world Down working_handlers.
Definition world_failing_store_down : @World DownStore :=
  sample_world Down failing_handlers.

(** Scenario B of the specification: the first failure of an exponential job. *)
Definition job_first_try : Job := sample_job 0 3 "exponential" 1000.
(** A later failure of an exponential job. *)
Definition job_third_try : Job := sample_job 3 5 "exponential" 1000.
(** Scenario C: one retry left. *)
Definition job_last_retry : Job := sample_job 2 3 "" 1000.
(** Scenario D: retries exhausted. *)
Definition job_exhausted : Job := sample_job 3 3 "" 1000.
(** A job that sets [MaxRetry] and leaves the retry strategy and wait unset. *)
Definition job_plain : Job := sample_job 0 3 "" 0.
(** A job that allows no retry. *)
Definition job_no_retry : Job := sample_job 0 0 "" 0.
(** A job whose [RetryWait] is negative, which int64 allows. *)
Definition job_negative_wait : Job := sample_job 0 3 "" (-1000).

(** A job whose strategy is spelt with a capital letter. *)
Definition job_capitalised : Job := sample_job 4 9 "Exponential" 1000.
(** A job of another rank. *)
Definition job_rank2 : Job :=
  mkJob "job-2" "send-email" 2 Waiting 0 3 "" 1000 0 0 0.
(** A job on a topic nobody registered. *)
Definition job_unknown_topic : Job :=
  mkJob "job-3" "resize-image" 1 Waiting 0 3 "" 1000 0 0 0.

(** A handler that writes [Completed] through the pointer and fails. *)
Definition handler_writes_completed : Processor :=
  fun j => (set_Completed 42 j, Some "boom"%string).

Definition world_writing_handler : @World MemStore :=
  sample_world ∅ {[ "send-email"%string := handler_writes_completed ]}.

(** A world whose clock reads the epoch instant itself. *)
Definition world_at_epoch : @World MemStore :=
  mkWorld working_handlers {[ 1 := 2 ]} ∅ (fun _ => 5000) 1 [] (fun _ => 0) 0.

(** ** Deliveries of one record *)

(** Up to [n] successive attempts on one record: every attempt is a call of
    [process] on the record as the previous attempt left it, and a record
    that is no longer [Waiting] is not attempted again. *)
Fixpoint redeliver {StoreT : Type} `{Store StoreT} (int64_of_huge : Z)
    (n : nat) (job : Job) : M Job :=
  match n with
  | O => ret job
  | S n' =>
      bind (process int64_of_huge job) (fun r =>
        match State (fst r) with
        | Waiting => redeliver int64_of_huge n' (fst r)
        | _ => ret (fst r)
        end)
  end.

(** The world after one turn of the loop of [run]: [process], then the log
    line if it returned an error. *)
Definition after_turn {StoreT : Type} `{Store StoreT} (int64_of_huge : Z)
    (job : Job) (w : World) : World :=
  match snd (fst (process int64_of_huge job w)) with
  | Some err =>
      snd (logger_Printf
             (LogJobFailed (ID (fst (fst (process int64_of_huge job w)))) err)
             (snd (process int64_of_huge job w)))
  | None => snd (process int64_of_huge job w)
  end.

(** Whether a handler is registered for the topic of [job]. *)
Definition has_processor (handlers : gmap string Processor) (job : Job) : bool :=
  match handlers !! Topic job with
  | Some _ => true
  | None => false
  end.

Arguments wrap64 : simpl never.
Arguments float64_of_int : simpl never.
Arguments Time_UnixNano : simpl never.
Arguments Time_Add : simpl never.
Arguments exponential_wait : simpl never.
Arguments no_processor : simpl never.
Arguments added_wait : simpl never.

(** ** Basic facts *)

Lemma wrap64_small (z : Z) : in_int64 z -> wrap64 z = z.
Proof.
  unfold in_int64, int64_min, int64_max, wrap64. intros Hz.
  rewrite Z.mod_small; lia.
Qed.

Lemma wrap64_range (z : Z) : in_int64 (wrap64 z).
Proof.
  unfold in_int64, int64_min, int64_max, wrap64.
  pose proof (Z.mod_pos_bound (z + 2 ^ 63) (2 ^ 64)). lia.
Qed.

Lemma float64_of_int_exact (n : Z) : Z.abs n < 2 ^ 53 -> float64_of_int n = n.
Proof.
  intros Hn. unfold float64_of_int.
  destruct (Z.ltb_spec (Z.abs n) (2 ^ 53)); [reflexivity | lia].
Qed.

(** Rounding keeps a large magnitude large and keeps the sign. *)
Lemma float64_of_int_large (n : Z) :
  2 ^ 53 <= Z.abs n ->
  float64_of_int n = Z.sgn n * Z.abs (float64_of_int n) /\
  2 ^ 53 <= Z.abs (float64_of_int n).
Proof.
  intros Hn. unfold float64_of_int.
  destruct (Z.ltb_spec (Z.abs n) (2 ^ 53)) as [Hlt | _]; [lia |].
  set (a := Z.abs n) in *.
  set (k := Z.log2 a - 52).
  assert (Hl : 53 <= Z.log2 a).
  { change 53 with (Z.log2 (2 ^ 53)). apply Z.log2_le_mono. exact Hn. }
  assert (Hk : 1 <= k) by (unfold k; lia).
  assert (Hpk : 2 <= 2 ^ k).
  { change 2 with (2 ^ 1) at 1. apply Z.pow_le_mono_r; lia. }
  assert (Hq : 2 ^ 52 <= a / 2 ^ k).
  { apply Z.div_le_lower_bound; [lia |].
    rewrite Z.mul_comm, <- Z.pow_add_r by lia.
    replace (52 + k) with (Z.log2 a) by (unfold k; lia).
    apply Z.log2_spec. lia. }
  set (q := a / 2 ^ k) in *.
  set (q' := if a mod 2 ^ k <? 2 ^ (k - 1) then q
             else if 2 ^ (k - 1) <? a mod 2 ^ k then q + 1
             else if Z.even q then q else q + 1).
  assert (Hq' : q <= q').
  { unfold q'. repeat match goal with |- context [if ?b then _ else _] => destruct b end; lia. }
  assert (Hbig : 2 ^ 53 <= q' * 2 ^ k).
  { change (2 ^ 53) with (2 ^ 52 * 2). apply Z.mul_le_mono_nonneg; lia. }
  assert (Hs : Z.sgn n = 1 \/ Z.sgn n = -1) by (unfold a in Hn; lia).
  destruct Hs as [-> | ->]; split; lia.
Qed.

Section Properties.

Context {StoreT : Type} `{Store StoreT}.
Variable huge : Z.

Implicit Types (j : Job) (w : @World StoreT) (p : Processor) (e : error).

(** The factor of the exponential wait in closed form: the power of two is
    truncated to an integer, so every negative exponent gives 0. *)
Lemma pow2_factor (x : Z) :
  int64_of_float64 huge (math_Pow2 (float64_of_int x)) =
  if x <? 0 then 0 else if x <? 63 then 2 ^ x else huge.
Proof.
  destruct (Z_lt_le_dec (Z.abs x) (2 ^ 53)) as [Hs | Hl].
  - rewrite float64_of_int_exact by exact Hs.
    unfold math_Pow2, int64_of_float64.
    destruct (Z.ltb_spec x (-1074)), (Z.ltb_spec 1023 x),
             (Z.ltb_spec x 0), (Z.ltb_spec x 63); try reflexivity; lia.
  - destruct (float64_of_int_large x Hl) as [Hsgn Hbig].
    set (f := float64_of_int x) in *.
    unfold math_Pow2, int64_of_float64.
    destruct (Z.ltb_spec f (-1074)), (Z.ltb_spec 1023 f),
             (Z.ltb_spec x 0), (Z.ltb_spec x 63); try reflexivity; lia.
Qed.

Lemma exponential_wait_eq j :
  exponential_wait huge j =
  wrap64 (RetryWait j *
          (if wrap64 (Retry j - 1) <? 0 then 0
           else if wrap64 (Retry j - 1) <? 63 then 2 ^ wrap64 (Retry j - 1)
           else huge)).
Proof. unfold exponential_wait. now rewrite pow2_factor. Qed.

(** *** [process], path by path *)

Lemma process_no_processor j w :
  tm w !! Topic j = None ->
  process huge j w =
  ((j, Some (no_processor (Topic j))),
   mkWorld (tm w) (released (Rank j) (working w)) (st w) (backoff w)
           (workersWg w) (trace w) (clock w) (ticks w)).
Proof.
  intros Hp. unfold process, process_body, bind, find_topic. simpl.
  rewrite Hp. reflexivity.
Qed.

Lemma process_succeeded j w p j1 :
  tm w !! Topic j = Some p -> p j = (j1, None) ->
  let job := set_Completed (Time_UnixNano (clock w (ticks w)))
                           (set_State Succeeded j1) in
  let upd := Update (st w) job in
  process huge j w =
  ((job, snd upd),
   mkWorld (tm w) (released (Rank j1) (working w)) (fst upd) (backoff w)
           (workersWg w)
           (match snd upd with
            | None => [EvHook JobSucceeded]
            | Some _ => []
            end ++ EvUpdate job :: EvInvoke j :: EvHook JobStarted :: trace w)
           (clock w) (S (ticks w))).
Proof.
  intros Hp Hr job upd.
  unfold process, process_body, bind, find_topic, invoke, bind. simpl.
  rewrite Hp. simpl. rewrite Hr. simpl.
  fold job. fold upd. destruct (snd upd); reflexivity.
Qed.

Lemma process_failed j w p j1 e :
  tm w !! Topic j = Some p -> p j = (j1, Some e) ->
  MaxRetry j1 <= Retry j1 ->
  let job := set_Completed (Time_UnixNano (clock w (ticks w)))
                           (set_State Failed j1) in
  let upd := Update (st w) job in
  process huge j w =
  ((job, snd upd),
   mkWorld (tm w) (released (Rank j1) (working w)) (fst upd) (backoff w)
           (workersWg w)
           (EvUpdate job :: EvHook JobFailed
            :: EvLog (LogFailedAfter (ID j1) (wrap64 (Retry j1 + 1)) e)
            :: EvInvoke j :: EvHook JobStarted :: trace w)
           (clock w) (S (ticks w))).
Proof.
  intros Hp Hr Hle job upd.
  unfold process, process_body, bind, find_topic, invoke, bind. simpl.
  rewrite Hp. simpl. rewrite Hr. simpl.
  destruct (Z.leb_spec (MaxRetry j1) (Retry j1)); [reflexivity | lia].
Qed.

Lemma process_retried j w p j1 e :
  tm w !! Topic j = Some p -> p j = (j1, Some e) ->
  Retry j1 < MaxRetry j1 ->
  let now1 := clock w (ticks w) in
  let now2 := clock w (S (ticks w)) in
  let job :=
    set_Retry (wrap64 (Retry j1 + 1))
      (set_State Waiting
         (set_Priority
            (wrap64 (- Time_UnixNano (Time_Add now2 (backoff w (Retry j1)))))
            (set_After (wrap64 (Time_UnixNano now1 + added_wait huge j1)) j1))) in
  let upd := Update (st w) job in
  process huge j w =
  ((job, snd upd),
   mkWorld (tm w) (released (Rank j1) (working w)) (fst upd) (backoff w)
           (workersWg w)
           (EvUpdate job :: EvHook JobRetry
            :: EvLog (LogFailedOnTry (ID j1) (wrap64 (Retry j1 + 1))
                                     (MaxRetry j1) e)
            :: EvInvoke j :: EvHook JobStarted :: trace w)
           (clock w) (S (S (ticks w)))).
Proof.
  intros Hp Hr Hlt now1 now2 job upd.
  unfold process, process_body, bind, find_topic, invoke, bind. simpl.
  rewrite Hp. simpl. rewrite Hr. simpl.
  destruct (Z.leb_spec (MaxRetry j1) (Retry j1)); [lia |].
  subst upd job now1 now2. unfold added_wait.
  destruct (String.eqb (RetryBackoff j1) "exponential"); reflexivity.
Qed.

Lemma wrap64_idem (z : Z) : wrap64 (wrap64 z) = wrap64 z.
Proof. apply wrap64_small, wrap64_range. Qed.

Ltac by_path E := cbv zeta in E; cbv zeta; rewrite E; simpl.

(** *** The claims *)

(** C1 (amended).  When the handler returns an error while
    [Retry < MaxRetry], [process] leaves the record [Waiting] with [Retry]
    increased by exactly 1 and [After] equal to the current time plus the
    wait of the selected strategy in int64 arithmetic; where that sum does
    not overflow, [After] is later than the current time exactly when the
    wait is positive.  The record is handed to the store's [Update] once,
    and what [Update] returns is what [process] returns. *)
Theorem retry_leaves_waiting j w p j1 e :
  tm w !! Topic j = Some p -> p j = (j1, Some e) ->
  Retry j1 < MaxRetry j1 ->
  in_int64 (Retry j1) -> in_int64 (MaxRetry j1) ->
  let now := Time_UnixNano (clock w (ticks w)) in
  let job' := fst (fst (process huge j w)) in
  let w' := snd (process huge j w) in
  State job' = Waiting /\
  Retry job' = Retry j1 + 1 /\
  After job' = wrap64 (now + added_wait huge j1) /\
  (in_int64 (now + added_wait huge j1) ->
   After job' = now + added_wait huge j1 /\
   (now < After job' <-> 0 < added_wait huge j1)) /\
  updates (trace w') = job' :: updates (trace w) /\
  st w' = fst (Update (st w) job') /\
  snd (fst (process huge j w)) = snd (Update (st w) job').
Proof.
  intros Hp Hr Hlt Hre Hmax.
  pose proof (process_retried j w p j1 e Hp Hr Hlt) as E.
  by_path E.
  assert (Hinc : wrap64 (Retry j1 + 1) = Retry j1 + 1).
  { apply wrap64_small. unfold in_int64, int64_min, int64_max in *. lia. }
  split; [reflexivity |]. split; [exact Hinc |]. split; [reflexivity |].
  split; [| repeat split; reflexivity].
  intros Hsum. rewrite (wrap64_small _ Hsum). split; [reflexivity | lia].
Qed.

(** C2.  When the handler returns an error while [Retry >= MaxRetry],
    [process] sets [State] to [Failed] (so not back to [Waiting]) and
    [Completed] to the current time, leaves [Retry] as it was, and hands
    the record to the store's [Update]. *)
Theorem exhausted_retries_fail j w p j1 e :
  tm w !! Topic j = Some p -> p j = (j1, Some e) ->
  MaxRetry j1 <= Retry j1 ->
  let job' := fst (fst (process huge j w)) in
  let w' := snd (process huge j w) in
  State job' = Failed /\
  State job' <> Waiting /\
  Completed job' = Time_UnixNano (clock w (ticks w)) /\
  Retry job' = Retry j1 /\
  signals JobRetry (trace w') = signals JobRetry (trace w) /\
  updates (trace w') = job' :: updates (trace w) /\
  st w' = fst (Update (st w) job') /\
  snd (fst (process huge j w)) = snd (Update (st w) job').
Proof.
  intros Hp Hr Hle.
  pose proof (process_failed j w p j1 e Hp Hr Hle) as E.
  by_path E. repeat split; try reflexivity. discriminate.
Qed.

(** C3.  When the handler returns nil, [process] sets [State] to
    [Succeeded] and [Completed] to the current time, hands the record to
    the store's [Update], and leaves [Retry], [After] and [Priority] as
    they were. *)
Theorem success_completes j w p j1 :
  tm w !! Topic j = Some p -> p j = (j1, None) ->
  let job' := fst (fst (process huge j w)) in
  let w' := snd (process huge j w) in
  State job' = Succeeded /\
  Completed job' = Time_UnixNano (clock w (ticks w)) /\
  updates (trace w') = job' :: updates (trace w) /\
  st w' = fst (Update (st w) job') /\
  snd (fst (process huge j w)) = snd (Update (st w) job') /\
  Retry job' = Retry j1 /\ After job' = After j1 /\
  Priority job' = Priority j1.
Proof.
  intros Hp Hr.
  pose proof (process_succeeded j w p j1 Hp Hr) as E.
  by_path E. repeat split; try reflexivity.
  destruct (snd (Update _ _)); reflexivity.
Qed.

Lemma spec_exponential_wait_pos (W r : Z) :
  1 <= r -> Qeq (inject_Z (W * 2 ^ (r - 1))) (spec_exponential_wait W r).
Proof.
  intros Hr. unfold spec_exponential_wait.
  rewrite inject_Z_mult, Zpower_Qpower by lia. reflexivity.
Qed.

(** C4 (amended).  On the retry branch with [RetryBackoff = "exponential"],
    [After] is the current time plus [W * int64(2^(r-1))] in int64
    arithmetic, the factor being the power of two truncated to an integer:
    the wait is [W * 2^(r-1)] for [1 <= r <= 63] and 0 for
    [-2^63 < r <= 0]; for [r >= 64], and for [r = -2^63] where [r - 1] wraps
    around to [2^63 - 1], it is [W] times the result of the out-of-range
    conversion. *)
Theorem exponential_wait_truncated j w p j1 e :
  tm w !! Topic j = Some p -> p j = (j1, Some e) ->
  Retry j1 < MaxRetry j1 ->
  RetryBackoff j1 = "exponential"%string ->
  in_int64 (Retry j1) ->
  let W := RetryWait j1 in
  let r := Retry j1 in
  let now := Time_UnixNano (clock w (ticks w)) in
  let job' := fst (fst (process huge j w)) in
  After job' = wrap64 (now + exponential_wait huge j1) /\
  (1 <= r <= 63 ->
   exponential_wait huge j1 = wrap64 (W * 2 ^ (r - 1)) /\
   (in_int64 (W * 2 ^ (r - 1)) ->
    Qeq (inject_Z (exponential_wait huge j1)) (spec_exponential_wait W r))) /\
  (int64_min < r <= 0 -> exponential_wait huge j1 = 0) /\
  (64 <= r \/ r = int64_min -> exponential_wait huge j1 = wrap64 (W * huge)).
Proof.
  intros Hp Hr Hlt Hexp Hrange.
  pose proof (process_retried j w p j1 e Hp Hr Hlt) as E.
  by_path E.
  split.
  { unfold added_wait. rewrite Hexp. reflexivity. }
  assert (Hdec : int64_min < Retry j1 ->
                 wrap64 (Retry j1 - 1) = Retry j1 - 1).
  { intros Hmin. apply wrap64_small.
    unfold in_int64, int64_min, int64_max in *. lia. }
  rewrite exponential_wait_eq.
  split; [| split].
  - intros Hr1. rewrite Hdec by (unfold int64_min; lia).
    destruct (Z.ltb_spec (Retry j1 - 1) 0); [lia |].
    destruct (Z.ltb_spec (Retry j1 - 1) 63); [| lia].
    split; [reflexivity |].
    intros Hfit. rewrite (wrap64_small _ Hfit).
    apply spec_exponential_wait_pos. lia.
  - intros Hr0. rewrite Hdec by lia.
    destruct (Z.ltb_spec (Retry j1 - 1) 0); [| lia].
    now rewrite Z.mul_0_r.
  - intros [Hr64 | Hmin].
    + rewrite Hdec by (unfold int64_min; lia).
      destruct (Z.ltb_spec (Retry j1 - 1) 0); [lia |].
      destruct (Z.ltb_spec (Retry j1 - 1) 63); [lia | reflexivity].
    + rewrite Hmin.
      replace (wrap64 (int64_min - 1)) with int64_max
        by (vm_compute; reflexivity).
      reflexivity.
Qed.

Lemma process_working j w :
  working (snd (process huge j w)) =
  released (Rank (fst (fst (process huge j w)))) (working w) /\
  Rank (fst (fst (process huge j w))) =
  match tm w !! Topic j with
  | Some p => Rank (fst (p j))
  | None => Rank j
  end.
Proof.
  destruct (tm w !! Topic j) as [p |] eqn:Hp.
  - destruct (p j) as [j1 [e |]] eqn:Hr.
    + destruct (Z_le_gt_dec (MaxRetry j1) (Retry j1)) as [Hle | Hgt].
      * pose proof (process_failed j w p j1 e Hp Hr Hle) as E.
        cbv zeta in E. rewrite E. simpl. split; reflexivity.
      * assert (Hlt : Retry j1 < MaxRetry j1) by lia.
        pose proof (process_retried j w p j1 e Hp Hr Hlt) as E.
        cbv zeta in E. rewrite E. simpl. split; reflexivity.
    + pose proof (process_succeeded j w p j1 Hp Hr) as E.
      cbv zeta in E. rewrite E. simpl. split; reflexivity.
  - rewrite (process_no_processor j w Hp). simpl. split; reflexivity.
Qed.

(** C5.  On every exit path of [process] (no hypothesis selects one), the
    counter of the record's [Rank] is decremented by one, once, and no
    other counter is touched. *)
Theorem counter_released_once j w :
  let job' := fst (fst (process huge j w)) in
  let w' := snd (process huge j w) in
  let rank := Rank job' in
  let before := default 0 (working w !! rank) in
  rank = match tm w !! Topic j with
         | Some p => Rank (fst (p j))
         | None => Rank j
         end /\
  working w' = <[rank := wrap64 (before - 1)]> (working w) /\
  working w' !! rank = Some (wrap64 (before - 1)) /\
  (int64_min < before <= int64_max -> working w' !! rank = Some (before - 1)) /\
  (forall k : Z, k <> rank -> working w' !! k = working w !! k).
Proof.
  cbv zeta. destruct (process_working j w) as [Hw Hrank].
  rewrite Hw. unfold released.
  split; [exact Hrank |]. split; [reflexivity |].
  split; [apply lookup_insert_eq |].
  split.
  - intros Hb. rewrite lookup_insert_eq. f_equal. apply wrap64_small.
    unfold in_int64, int64_min, int64_max in *. lia.
  - intros k Hk. apply lookup_insert_ne. congruence.
Qed.

(** C6.  When no handler is registered for the record's [Topic],
    [process] returns the "no processor" error and the record as it was;
    no handler is invoked, the store's [Update] is not called, and nothing
    is logged, signalled or timed. *)
Theorem no_processor_leaves_record j w :
  tm w !! Topic j = None ->
  let w' := snd (process huge j w) in
  fst (process huge j w) =
    (j, Some (String.append "no processor found for topic " (Topic j))) /\
  invocations (trace w') = invocations (trace w) /\
  updates (trace w') = updates (trace w) /\
  st w' = st w /\
  trace w' = trace w /\
  ticks w' = ticks w.
Proof.
  intros Hp. cbv zeta. rewrite (process_no_processor j w Hp). simpl.
  repeat split; reflexivity.
Qed.

Lemma run_loop_cons j (rest : list Job) w :
  run_loop huge (j :: rest) w =
  let r := process huge j w in
  let wl := match snd (fst r) with
            | Some err =>
                snd (logger_Printf (LogJobFailed (ID (fst (fst r))) err) (snd r))
            | None => snd r
            end in
  (fst (fst r) :: fst (run_loop huge rest wl), snd (run_loop huge rest wl)).
Proof.
  cbn [run_loop]. unfold bind at 1 2 3. cbv zeta.
  destruct (snd (fst (process huge j w))); reflexivity.
Qed.

(** C7 (amended).  For a record that enters [Waiting] with [Completed]
    unset (zero), handled by a handler that does not write [Completed]
    through the pointer it receives, and with a current-time sample other
    than 0 (the epoch instant itself): after [process], [Completed] is set
    exactly when [State] is [Succeeded] or [Failed]; it stays unset on the
    retry path and when no handler is registered. *)
Theorem completed_iff_terminal j w :
  State j = Waiting -> Completed j = 0 ->
  (forall p, tm w !! Topic j = Some p -> Completed (fst (p j)) = Completed j) ->
  Time_UnixNano (clock w (ticks w)) <> 0 ->
  let job' := fst (fst (process huge j w)) in
  (Completed job' <> 0 <-> State job' = Succeeded \/ State job' = Failed) /\
  (State job' = Waiting -> Completed job' = 0) /\
  (forall p j1 e, tm w !! Topic j = Some p -> p j = (j1, Some e) ->
                  Retry j1 < MaxRetry j1 ->
                  State job' = Waiting /\ Completed job' = 0) /\
  (tm w !! Topic j = None -> State job' = Waiting /\ Completed job' = 0).
Proof.
  intros Hs Hc Hkeep Hclock. cbv zeta.
  destruct (tm w !! Topic j) as [p |] eqn:Hp.
  - specialize (Hkeep p eq_refl). rewrite Hc in Hkeep.
    destruct (p j) as [j1 [e |]] eqn:Hr; simpl in Hkeep.
    + destruct (Z_le_gt_dec (MaxRetry j1) (Retry j1)) as [Hle | Hgt].
      * pose proof (process_failed j w p j1 e Hp Hr Hle) as E.
        cbv zeta in E. rewrite E. simpl.
        split; [split; [intros _; right; reflexivity | intros _; exact Hclock] |].
        split; [discriminate |]. split; [| discriminate].
        intros p' j1' e' Hp' Hr' Hlt. exfalso.
        injection Hp' as <-. rewrite Hr in Hr'. injection Hr' as <- _. lia.
      * assert (Hlt : Retry j1 < MaxRetry j1) by lia.
        pose proof (process_retried j w p j1 e Hp Hr Hlt) as E.
        cbv zeta in E. rewrite E. simpl.
        split; [split; [congruence | intros [Hx | Hx]; discriminate] |].
        split; [intros _; exact Hkeep |]. split; [| discriminate].
        intros _ _ _ _ _ _. split; [reflexivity | exact Hkeep].
    + pose proof (process_succeeded j w p j1 Hp Hr) as E.
      cbv zeta in E. rewrite E. simpl.
      split; [split; [intros _; left; reflexivity | intros _; exact Hclock] |].
      split; [discriminate |]. split; [| discriminate].
      intros p' j1' e' Hp' Hr' Hlt. exfalso.
      injection Hp' as <-. rewrite Hr in Hr'. discriminate.
  - rewrite (process_no_processor j w Hp). simpl. rewrite Hs, Hc.
    split; [split; [congruence | intros [Hx | Hx]; discriminate] |].
    split; [reflexivity |]. split; [discriminate |].
    intros _. split; reflexivity.
Qed.

(** C8.  With a handler registered: when the store's [Update] returns an
    error, [process] returns that error together with the record exactly
    as it was handed to [Update] (new [State], and [Completed] or
    [Retry]/[After]/[Priority]), no "succeeded" hook is called, and
    [run]'s loop logs the error and goes on with the remaining records.
    On the success path the "succeeded" hook is called exactly when
    [Update] returns nil. *)
Theorem update_error_returned j w p (rest : list Job) :
  tm w !! Topic j = Some p ->
  let j1 := fst (p j) in
  let now := Time_UnixNano (clock w (ticks w)) in
  let job' := fst (fst (process huge j w)) in
  let w' := snd (process huge j w) in
  (forall e, snd (Update (st w) job') = Some e ->
     snd (fst (process huge j w)) = Some e /\
     updates (trace w') = job' :: updates (trace w) /\
     match snd (p j) with
     | None => State job' = Succeeded /\ Completed job' = now
     | Some _ =>
         if MaxRetry j1 <=? Retry j1
         then State job' = Failed /\ Completed job' = now
         else State job' = Waiting /\
              Retry job' = wrap64 (Retry j1 + 1) /\
              After job' = wrap64 (now + added_wait huge j1) /\
              Priority job' =
                wrap64 (- Time_UnixNano
                            (Time_Add (clock w (S (ticks w)))
                                      (backoff w (Retry j1))))
     end /\
     signals JobSucceeded (trace w') = signals JobSucceeded (trace w) /\
     let wl := snd (logger_Printf (LogJobFailed (ID job') e) w') in
     logged (trace wl) = LogJobFailed (ID job') e :: logged (trace w') /\
     run_loop huge (j :: rest) w =
       (job' :: fst (run_loop huge rest wl), snd (run_loop huge rest wl))) /\
  (snd (p j) = None ->
     (signals JobSucceeded (trace w') = S (signals JobSucceeded (trace w))
      <-> snd (Update (st w) job') = None) /\
     (signals JobSucceeded (trace w') = signals JobSucceeded (trace w)
      <-> snd (Update (st w) job') <> None)).
Proof.
  intros Hp. cbv zeta. rewrite run_loop_cons. cbv zeta.
  destruct (p j) as [j1 [e0 |]] eqn:Hr; cbn [fst snd].
  - destruct (Z.leb_spec (MaxRetry j1) (Retry j1)) as [Hle | Hlt].
    + pose proof (process_failed j w p j1 e0 Hp Hr Hle) as E.
      cbv zeta in E. rewrite E. simpl.
      split; [| discriminate].
      intros e He. rewrite He. repeat split; reflexivity.
    + pose proof (process_retried j w p j1 e0 Hp Hr Hlt) as E.
      cbv zeta in E. rewrite E. simpl.
      split; [| discriminate].
      intros e He. rewrite He. repeat split; reflexivity.
  - pose proof (process_succeeded j w p j1 Hp Hr) as E.
    cbv zeta in E. rewrite E. simpl.
    split.
    + intros e He. rewrite He. simpl. repeat split; reflexivity.
    + intros _. destruct (snd (Update _ _)); simpl; split; split;
        try congruence; try lia; intros; congruence.
Qed.

(** C9.  On the retry branch with [RetryBackoff = "exponential"] and
    [Retry = 0], the factor [int64(2^(-1))] is 0, the wait is 0, and
    [After] is the current-time sample of that branch. *)
Theorem first_exponential_retry_adds_nothing j w p j1 e :
  tm w !! Topic j = Some p -> p j = (j1, Some e) ->
  Retry j1 = 0 -> 0 < MaxRetry j1 ->
  RetryBackoff j1 = "exponential"%string ->
  let job' := fst (fst (process huge j w)) in
  int64_of_float64 huge (math_Pow2 (float64_of_int (wrap64 (Retry j1 - 1)))) = 0 /\
  exponential_wait huge j1 = 0 /\
  After job' = Time_UnixNano (clock w (ticks w)).
Proof.
  intros Hp Hr H0 Hmax Hexp.
  assert (Hlt : Retry j1 < MaxRetry j1) by lia.
  pose proof (process_retried j w p j1 e Hp Hr Hlt) as E.
  by_path E.
  assert (Hf : int64_of_float64 huge
                 (math_Pow2 (float64_of_int (wrap64 (Retry j1 - 1)))) = 0).
  { rewrite H0. reflexivity. }
  assert (Hw : exponential_wait huge j1 = 0).
  { unfold exponential_wait. rewrite Hf, Z.mul_0_r. reflexivity. }
  split; [exact Hf |]. split; [exact Hw |].
  unfold added_wait. rewrite Hexp. simpl. rewrite Hw, Z.add_0_r.
  unfold Time_UnixNano. apply wrap64_idem.
Qed.

(** C10.  A record with [MaxRetry = 0] and [Retry = 0] whose handler
    returns an error goes straight to [Failed] with [Completed] set to the
    current time and is handed to the store's [Update]; the handler was
    invoked once, and the retry branch was not taken. *)
Theorem zero_budget_fails_at_once j w p j1 e :
  tm w !! Topic j = Some p -> p j = (j1, Some e) ->
  MaxRetry j1 = 0 -> Retry j1 = 0 ->
  let job' := fst (fst (process huge j w)) in
  let w' := snd (process huge j w) in
  State job' = Failed /\
  Completed job' = Time_UnixNano (clock w (ticks w)) /\
  Retry job' = 0 /\
  updates (trace w') = job' :: updates (trace w) /\
  st w' = fst (Update (st w) job') /\
  invocations (trace w') = j :: invocations (trace w) /\
  signals JobRetry (trace w') = signals JobRetry (trace w).
Proof.
  intros Hp Hr Hmax H0.
  assert (Hle : MaxRetry j1 <= Retry j1) by lia.
  pose proof (process_failed j w p j1 e Hp Hr Hle) as E.
  by_path E. repeat split; try reflexivity. exact H0.
Qed.

End Properties.

(** ** Concrete runs *)

(** C1 as stated fails: a job that leaves [RetryWait] unset is retried with
    [After] equal to the current time, not later; with a negative
    [RetryWait], [After] lies before the current time. *)
Lemma retry_after_not_later :
  let w := world_failing in
  let j := job_plain in
  let now := Time_UnixNano (clock w (ticks w)) in
  tm w !! Topic j = Some handler_fails /\
  handler_fails j = (j, Some "boom"%string) /\
  Retry j < MaxRetry j /\
  State (fst (fst (process amd64_huge j w))) = Waiting /\
  Retry (fst (fst (process amd64_huge j w))) = Retry j + 1 /\
  After (fst (fst (process amd64_huge j w))) = now /\
  ~ (now < After (fst (fst (process amd64_huge j w)))) /\
  After (fst (fst (process amd64_huge job_negative_wait w))) = now - 1000.
Proof.
  vm_compute. repeat split; try reflexivity. intros Hlt. discriminate Hlt.
Qed.

Lemma retry_leaves_waiting_witness :
  let w := world_failing in
  let j := job_last_retry in
  State (fst (fst (process amd64_huge j w))) = Waiting /\
  Retry (fst (fst (process amd64_huge j w))) = 3 /\
  Time_UnixNano (clock w (ticks w)) < After (fst (fst (process amd64_huge j w))).
Proof.
  cbv zeta.
  assert (Hr : in_int64 (Retry job_last_retry)).
  { unfold in_int64, int64_min, int64_max. simpl. lia. }
  assert (Hm : in_int64 (MaxRetry job_last_retry)).
  { unfold in_int64, int64_min, int64_max. simpl. lia. }
  assert (Hlt : Retry job_last_retry < MaxRetry job_last_retry) by (simpl; lia).
  pose proof (retry_leaves_waiting amd64_huge job_last_retry world_failing
                handler_fails job_last_retry "boom"%string
                eq_refl eq_refl Hlt Hr Hm) as W.
  cbv zeta in W. destruct W as (Hs & Hinc & _ & Hafter & _).
  split; [exact Hs |]. split; [exact Hinc |].
  apply Hafter.
  - vm_compute. split; discriminate.
  - vm_compute. reflexivity.
Defined.

Lemma exhausted_retries_fail_witness :
  let w := world_failing in
  let j := job_exhausted in
  State (fst (fst (process amd64_huge j w))) = Failed /\
  Completed (fst (fst (process amd64_huge j w))) = 1700000000000000000 /\
  Retry (fst (fst (process amd64_huge j w))) = 3 /\
  st (snd (process amd64_huge j w)) !! "job-1"%string
    = Some (fst (fst (process amd64_huge j w))).
Proof.
  cbv zeta.
  assert (Hle : MaxRetry job_exhausted <= Retry job_exhausted) by (simpl; lia).
  pose proof (exhausted_retries_fail amd64_huge job_exhausted world_failing
                handler_fails job_exhausted "boom"%string
                eq_refl eq_refl Hle) as W.
  cbv zeta in W. destruct W as (Hs & _ & Hc & Hr & _ & _ & Hst & _).
  split; [exact Hs |]. split; [rewrite Hc; reflexivity |].
  split; [exact Hr |]. rewrite Hst. reflexivity.
Defined.

Lemma success_completes_witness :
  let w := world_working in
  let j := job_last_retry in
  State (fst (fst (process amd64_huge j w))) = Succeeded /\
  Completed (fst (fst (process amd64_huge j w))) = 1700000000000000000 /\
  Retry (fst (fst (process amd64_huge j w))) = 2 /\
  updates (trace (snd (process amd64_huge j w)))
    = [fst (fst (process amd64_huge j w))].
Proof.
  cbv zeta.
  pose proof (success_completes amd64_huge job_last_retry world_working
                handler_ok job_last_retry eq_refl eq_refl) as W.
  cbv zeta in W. destruct W as (Hs & Hc & Hu & _ & _ & Hr & _).
  split; [exact Hs |]. split; [rewrite Hc; reflexivity |].
  split; [exact Hr | exact Hu].
Defined.

(** C4 as stated fails at [r = 0]: with [W = 1000] the specification's
    value is [1000 * 2^(-1) = 500], and the code adds 0. *)
Lemma exponential_first_retry_not_half :
  let w := world_failing in
  let j := job_first_try in
  let now := Time_UnixNano (clock w (ticks w)) in
  tm w !! Topic j = Some handler_fails /\
  handler_fails j = (j, Some "boom"%string) /\
  Retry j < MaxRetry j /\
  RetryBackoff j = "exponential"%string /\
  RetryWait j = 1000 /\ Retry j = 0 /\
  After (fst (fst (process amd64_huge j w))) - now = 0 /\
  exponential_wait amd64_huge j = 0 /\
  Qeq (spec_exponential_wait 1000 0) (Qmake 500 1) /\
  ~ Qeq (inject_Z (After (fst (fst (process amd64_huge j w))) - now))
        (spec_exponential_wait (RetryWait j) (Retry j)).
Proof.
  vm_compute. repeat split; try reflexivity. intros Heq. discriminate Heq.
Qed.

Lemma exponential_wait_truncated_witness :
  let w := world_failing in
  let j := job_third_try in
  exponential_wait amd64_huge j = 4000 /\
  Qeq (inject_Z (exponential_wait amd64_huge j)) (spec_exponential_wait 1000 3) /\
  After (fst (fst (process amd64_huge j w))) = 1700000000000000000 + 4000.
Proof.
  cbv zeta.
  assert (Hlt : Retry job_third_try < MaxRetry job_third_try) by (simpl; lia).
  assert (Hrg : in_int64 (Retry job_third_try)).
  { unfold in_int64, int64_min, int64_max. simpl. lia. }
  pose proof (exponential_wait_truncated amd64_huge job_third_try world_failing
                handler_fails job_third_try "boom"%string
                eq_refl eq_refl Hlt eq_refl Hrg) as W.
  cbv zeta in W. destruct W as (Ha & Hmid & _ & _).
  assert (H13 : 1 <= Retry job_third_try <= 63) by (simpl; lia).
  destruct (Hmid H13) as (Hw & Hq).
  split; [rewrite Hw; reflexivity |].
  split; [apply Hq; vm_compute; split; discriminate |].
  rewrite Ha, Hw. reflexivity.
Defined.

(** The counter of rank 1 goes from 2 to 1 on the retry path and when no
    handler is registered; rank 7 stays absent. *)
Lemma counter_released_once_witness :
  working (snd (process amd64_huge job_last_retry world_failing)) !! 1 = Some 1 /\
  working (snd (process amd64_huge job_last_retry world_no_handlers)) !! 1 = Some 1 /\
  working (snd (process amd64_huge job_last_retry world_failing)) !! 7 = None.
Proof.
  pose proof (counter_released_once amd64_huge job_last_retry world_failing) as W1.
  pose proof (counter_released_once amd64_huge job_last_retry world_no_handlers) as W2.
  cbv zeta in W1, W2.
  destruct W1 as (Hr1 & _ & _ & Hd1 & Ho1). destruct W2 as (Hr2 & _ & _ & Hd2 & _).
  rewrite Hr1 in Hd1, Ho1. rewrite Hr2 in Hd2.
  split; [| split].
  - apply Hd1. vm_compute. split; [reflexivity | discriminate].
  - apply Hd2. vm_compute. split; [reflexivity | discriminate].
  - rewrite Ho1; [reflexivity | vm_compute; discriminate].
Defined.

(** Scenario A of the specification. *)
Lemma no_processor_leaves_record_witness :
  let w := world_no_handlers in
  let j := job_last_retry in
  fst (process amd64_huge j w)
    = (j, Some "no processor found for topic send-email"%string) /\
  State (fst (fst (process amd64_huge j w))) = Waiting /\
  updates (trace (snd (process amd64_huge j w))) = [] /\
  invocations (trace (snd (process amd64_huge j w))) = [].
Proof.
  cbv zeta.
  pose proof (no_processor_leaves_record amd64_huge job_last_retry
                world_no_handlers eq_refl) as W.
  cbv zeta in W. destruct W as (Hres & Hi & Hu & _).
  rewrite Hres, Hi, Hu. repeat split; reflexivity.
Defined.

(** C7 as stated fails: a handler that writes [Completed] and fails with a
    retry left leaves the record [Waiting] with [Completed] set; and under a
    clock that reads 0, a record that succeeds is [Succeeded] with
    [Completed] still 0. *)
Lemma completed_not_iff_terminal :
  let j := job_last_retry in
  let retried := fst (fst (process amd64_huge j world_writing_handler)) in
  let done := fst (fst (process amd64_huge j world_at_epoch)) in
  State j = Waiting /\ Completed j = 0 /\
  State retried = Waiting /\ Completed retried = 42 /\
  ~ (Completed retried <> 0 <-> State retried = Succeeded \/ State retried = Failed) /\
  State done = Succeeded /\ Completed done = 0 /\
  ~ (Completed done <> 0 <-> State done = Succeeded \/ State done = Failed).
Proof.
  cbv zeta.
  assert (E1 : fst (fst (process amd64_huge job_last_retry world_writing_handler))
               = mkJob "job-1" "send-email" 1 Waiting 3 3 "" 1000
                       1700000000000001000 (-1700000000000005001) 42)
    by (vm_compute; reflexivity).
  assert (E2 : fst (fst (process amd64_huge job_last_retry world_at_epoch))
               = mkJob "job-1" "send-email" 1 Succeeded 2 3 "" 1000 0 0 0)
    by (vm_compute; reflexivity).
  rewrite E1, E2. simpl.
  split; [reflexivity |]. split; [reflexivity |].
  split; [reflexivity |]. split; [reflexivity |].
  split.
  { intros [Hf _]. destruct Hf as [Hx | Hx]; [discriminate | discriminate Hx | discriminate Hx]. }
  split; [reflexivity |]. split; [reflexivity |].
  intros [_ Hb]. apply Hb; [left; reflexivity | reflexivity].
Qed.

Lemma completed_iff_terminal_witness :
  let w := world_failing in
  (Completed (fst (fst (process amd64_huge job_exhausted w))) <> 0 <->
   State (fst (fst (process amd64_huge job_exhausted w))) = Succeeded \/
   State (fst (fst (process amd64_huge job_exhausted w))) = Failed) /\
  (State (fst (fst (process amd64_huge job_last_retry w))) = Waiting ->
   Completed (fst (fst (process amd64_huge job_last_retry w))) = 0).
Proof.
  cbv zeta.
  assert (Hkeep : forall j p, tm world_failing !! Topic j = Some p ->
                              Completed (fst (p j)) = Completed j).
  { intros j p Hp.
    destruct (tm world_failing !! Topic j) as [q |] eqn:Hq; [| discriminate].
    injection Hp as <-.
    unfold world_failing, sample_world, failing_handlers in Hq. simpl in Hq.
    apply lookup_singleton_Some in Hq. destruct Hq as [_ <-]. reflexivity. }
  assert (Hclock : Time_UnixNano (clock world_failing (ticks world_failing)) <> 0).
  { vm_compute. discriminate. }
  pose proof (completed_iff_terminal amd64_huge job_exhausted world_failing
                eq_refl eq_refl (Hkeep job_exhausted) Hclock) as W1.
  pose proof (completed_iff_terminal amd64_huge job_last_retry world_failing
                eq_refl eq_refl (Hkeep job_last_retry) Hclock) as W2.
  cbv zeta in W1, W2.
  destruct W1 as (Hiff & _). destruct W2 as (_ & Hwait & _).
  split; [exact Hiff | exact Hwait].
Defined.

Lemma update_error_returned_witness :
  let w := world_store_down in
  let j := job_last_retry in
  snd (fst (process amd64_huge j w)) = Some "store is down"%string /\
  State (fst (fst (process amd64_huge j w))) = Succeeded /\
  signals JobSucceeded (trace (snd (process amd64_huge j w))) = O /\
  logged (trace (snd (run_loop amd64_huge [j; j] w)))
    = [LogJobFailed "job-1" "store is down"; LogJobFailed "job-1" "store is down"]%string /\
  length (fst (run_loop amd64_huge [j; j] w)) = 2%nat.
Proof.
  cbv zeta.
  pose proof (update_error_returned amd64_huge job_last_retry world_store_down
                handler_ok [job_last_retry] eq_refl) as W.
  cbv zeta in W. destruct W as (Herr & _).
  destruct (Herr "store is down"%string eq_refl)
    as (Hret & _ & Hstate & Hsig & _ & Hrun).
  split; [exact Hret |]. split; [apply Hstate |].
  split; [rewrite Hsig; reflexivity |].
  rewrite Hrun. split; reflexivity.
Defined.

(** Scenario B of the specification, as the code runs it. *)
Lemma first_exponential_retry_adds_nothing_witness :
  let w := world_failing in
  let j := job_first_try in
  exponential_wait amd64_huge j = 0 /\
  After (fst (fst (process amd64_huge j w))) = 1700000000000000000.
Proof.
  cbv zeta.
  assert (Hmax : 0 < MaxRetry job_first_try) by (simpl; lia).
  pose proof (first_exponential_retry_adds_nothing amd64_huge job_first_try
                world_failing handler_fails job_first_try "boom"%string
                eq_refl eq_refl eq_refl Hmax eq_refl) as W.
  cbv zeta in W. destruct W as (_ & Hw & Ha).
  split; [exact Hw |]. rewrite Ha. reflexivity.
Defined.

Lemma zero_budget_fails_at_once_witness :
  let w := world_failing in
  let j := job_no_retry in
  State (fst (fst (process amd64_huge j w))) = Failed /\
  Completed (fst (fst (process amd64_huge j w))) = 1700000000000000000 /\
  invocations (trace (snd (process amd64_huge j w))) = [j] /\
  signals JobRetry (trace (snd (process amd64_huge j w))) = O.
Proof.
  cbv zeta.
  pose proof (zero_budget_fails_at_once amd64_huge job_no_retry world_failing
                handler_fails job_no_retry "boom"%string
                eq_refl eq_refl eq_refl eq_refl) as W.
  cbv zeta in W. destruct W as (Hs & Hc & _ & _ & _ & Hi & Hsig).
  split; [exact Hs |]. split; [rewrite Hc; reflexivity |].
  split; [exact Hi | rewrite Hsig; reflexivity].
Defined.

(** ** Further properties of [process] and [run] *)

Section Further.

Context {StoreT : Type} `{Store StoreT}.
Variable huge : Z.

Implicit Types (j : Job) (w : @World StoreT) (p : Processor) (e : error).

(** Case analysis over the four paths of [process], each with the world and
    result it ends in. *)
Ltac paths j w p j1 e Hp Hr Hcmp :=
  let E := fresh "E" in
  destruct (tm w !! Topic j) as [p |] eqn:Hp;
  [ destruct (p j) as [j1 [e |]] eqn:Hr;
    [ destruct (Z_le_gt_dec (MaxRetry j1) (Retry j1)) as [Hcmp | Hcmp];
      [ pose proof (process_failed huge j w p j1 e Hp Hr Hcmp) as E
      | apply Z.gt_lt in Hcmp;
        pose proof (process_retried huge j w p j1 e Hp Hr Hcmp) as E ]
    | pose proof (process_succeeded huge j w p j1 Hp Hr) as E ]
  | pose proof (process_no_processor huge j w Hp) as E ];
  cbv zeta in E; rewrite E; clear E; simpl.

Lemma process_frame j w :
  tm (snd (process huge j w)) = tm w /\
  backoff (snd (process huge j w)) = backoff w /\
  clock (snd (process huge j w)) = clock w /\
  workersWg (snd (process huge j w)) = workersWg w.
Proof. paths j w p j1 e Hp Hr Hcmp; repeat split; reflexivity. Qed.

Lemma run_loop_turn j (rest : list Job) w :
  run_loop huge (j :: rest) w =
  (fst (fst (process huge j w)) :: fst (run_loop huge rest (after_turn huge j w)),
   snd (run_loop huge rest (after_turn huge j w))).
Proof. rewrite run_loop_cons. reflexivity. Qed.

Lemma after_turn_frame j w :
  tm (after_turn huge j w) = tm w /\
  backoff (after_turn huge j w) = backoff w /\
  clock (after_turn huge j w) = clock w /\
  workersWg (after_turn huge j w) = workersWg w /\
  working (after_turn huge j w) = working (snd (process huge j w)).
Proof.
  destruct (process_frame j w) as (Ht & Hb & Hc & Hg).
  unfold after_turn. destruct (snd (fst (process huge j w))); simpl;
    repeat split; assumption || reflexivity.
Qed.

Lemma run_loop_frame (jobc : list Job) w :
  tm (snd (run_loop huge jobc w)) = tm w /\
  backoff (snd (run_loop huge jobc w)) = backoff w /\
  clock (snd (run_loop huge jobc w)) = clock w /\
  workersWg (snd (run_loop huge jobc w)) = workersWg w.
Proof.
  revert w. induction jobc as [| j rest IH]; intros w.
  - simpl. repeat split; reflexivity.
  - rewrite run_loop_turn. cbn [snd].
    destruct (IH (after_turn huge j w)) as (Ht & Hb & Hc & Hg).
    destruct (after_turn_frame j w) as (Ht' & Hb' & Hc' & Hg' & _).
    repeat split; congruence.
Qed.

(** X1.  Whatever the jobs and their outcomes, [run] leaves the topic map,
    the backoff policy and the clock as they are and, for a worker that was
    added to the wait group, signals it exactly once; it returns one record
    per delivered job. *)
Theorem run_signals_done_once (jobc : list Job) w :
  0 < workersWg w ->
  let w' := snd (run huge jobc w) in
  workersWg w' = workersWg w - 1 /\
  tm w' = tm w /\ backoff w' = backoff w /\ clock w' = clock w /\
  length (fst (run huge jobc w)) = length jobc.
Proof.
  intros _. cbv zeta.
  destruct (run_loop_frame jobc w) as (Ht & Hb & Hc & Hg).
  assert (Hlen : forall (l : list Job) w0,
             length (fst (run_loop huge l w0)) = length l).
  { induction l as [| j rest IH]; intros w0; [reflexivity |].
    rewrite run_loop_turn. cbn [fst length]. now rewrite IH. }
  unfold run, bind, workersWg_Done, ret. simpl.
  repeat split; try assumption. - now rewrite Hg. - apply Hlen.
Qed.

(** X2.  [process] never writes [ID], [Topic], [Rank], [MaxRetry],
    [RetryBackoff] or [RetryWait]: on every path they are as the handler
    left them (as delivered, when no handler is registered). *)
Theorem process_keeps_job_settings j w :
  let job' := fst (fst (process huge j w)) in
  let j1 := match tm w !! Topic j with
            | Some p => fst (p j)
            | None => j
            end in
  ID job' = ID j1 /\ Topic job' = Topic j1 /\ Rank job' = Rank j1 /\
  MaxRetry job' = MaxRetry j1 /\ RetryBackoff job' = RetryBackoff j1 /\
  RetryWait job' = RetryWait j1.
Proof.
  cbv zeta. paths j w p j1 e Hp Hr Hcmp; repeat split; reflexivity.
Qed.

(** X3.  With a handler registered for the topic, one attempt invokes the
    handler exactly once, on the record as delivered, calls the "started"
    hook once and the store's [Update] once with the record it returns,
    whatever the outcome of the handler and of [Update]. *)
Theorem registered_job_attempted_once j w p :
  tm w !! Topic j = Some p ->
  let job' := fst (fst (process huge j w)) in
  let w' := snd (process huge j w) in
  invocations (trace w') = j :: invocations (trace w) /\
  signals JobStarted (trace w') = S (signals JobStarted (trace w)) /\
  updates (trace w') = job' :: updates (trace w) /\
  st w' = fst (Update (st w) job') /\
  snd (fst (process huge j w)) = snd (Update (st w) job').
Proof.
  intros Hp0. cbv zeta.
  paths j w p' j1 e Hp Hr Hcmp; try discriminate;
    try (repeat split; reflexivity).
  destruct (snd (Update _ _)); simpl; repeat split; reflexivity.
Qed.

(** X4.  When the handler returns an error, exactly one of the "failed" and
    "retry" hooks is called, by the retry budget alone; the "succeeded" hook
    is not called.  The attempt's events are, in order: the "started" hook,
    the handler, one log line with the try number [Retry + 1], the "failed"
    or "retry" hook, and last the store's [Update] -- so the hook is called
    before [Update], and also when [Update] fails. *)
Theorem failure_hooks_ignore_update j w p j1 e :
  tm w !! Topic j = Some p -> p j = (j1, Some e) ->
  let w' := snd (process huge j w) in
  let job' := fst (fst (process huge j w)) in
  let exhausted := MaxRetry j1 <=? Retry j1 in
  signals JobFailed (trace w') =
    ((if exhausted then 1 else 0) + signals JobFailed (trace w))%nat /\
  signals JobRetry (trace w') =
    ((if exhausted then 0 else 1) + signals JobRetry (trace w))%nat /\
  signals JobSucceeded (trace w') = signals JobSucceeded (trace w) /\
  logged (trace w') =
    (if exhausted
     then LogFailedAfter (ID j1) (wrap64 (Retry j1 + 1)) e
     else LogFailedOnTry (ID j1) (wrap64 (Retry j1 + 1)) (MaxRetry j1) e)
    :: logged (trace w) /\
  trace w' =
    EvUpdate job'
    :: EvHook (if exhausted then JobFailed else JobRetry)
    :: EvLog (if exhausted
              then LogFailedAfter (ID j1) (wrap64 (Retry j1 + 1)) e
              else LogFailedOnTry (ID j1) (wrap64 (Retry j1 + 1)) (MaxRetry j1) e)
    :: EvInvoke j :: EvHook JobStarted :: trace w.
Proof.
  intros Hp Hr. cbv zeta.
  destruct (Z.leb_spec (MaxRetry j1) (Retry j1)) as [Hle | Hlt].
  - pose proof (process_failed huge j w p j1 e Hp Hr Hle) as E.
    cbv zeta in E. rewrite E. simpl. repeat split; reflexivity.
  - pose proof (process_retried huge j w p j1 e Hp Hr Hlt) as E.
    cbv zeta in E. rewrite E. simpl. repeat split; reflexivity.
Qed.

(** X5.  [process] reads the clock twice on the retry path, once on the two
    terminal paths, and not at all when no handler is registered.  On the
    retry path the first sample goes into [After] and the second, later one
    into [Priority]; on the terminal paths the one sample is [Completed]. *)
Theorem process_clock_reads j w :
  let w' := snd (process huge j w) in
  let job' := fst (fst (process huge j w)) in
  let first := clock w (ticks w) in
  let second := clock w (S (ticks w)) in
  ticks w' =
  Nat.add (ticks w)
    match tm w !! Topic j with
    | None => 0%nat
    | Some p =>
        match snd (p j) with
        | None => 1%nat
        | Some _ =>
            if MaxRetry (fst (p j)) <=? Retry (fst (p j)) then 1%nat else 2%nat
        end
    end /\
  match tm w !! Topic j with
  | None => job' = j
  | Some p =>
      let j1 := fst (p j) in
      match snd (p j) with
      | None => Completed job' = Time_UnixNano first
      | Some _ =>
          if MaxRetry j1 <=? Retry j1
          then Completed job' = Time_UnixNano first
          else After job' = wrap64 (Time_UnixNano first + added_wait huge j1) /\
               Priority job' =
                 wrap64 (- Time_UnixNano (Time_Add second (backoff w (Retry j1))))
      end
  end.
Proof.
  cbv zeta. paths j w p j1 e Hp Hr Hcmp.
  - destruct (Z.leb_spec (MaxRetry j1) (Retry j1)); [| lia].
    split; [lia | reflexivity].
  - destruct (Z.leb_spec (MaxRetry j1) (Retry j1)); [lia |].
    split; [lia | split; reflexivity].
  - split; [lia | reflexivity].
  - split; [lia | reflexivity].
Qed.

(** X6.  On the retry path with any [RetryBackoff] other than the exact
    string "exponential", [After] is the current time plus [RetryWait] in
    int64 arithmetic, whatever [Retry] is. *)
Theorem flat_wait_ignores_retry j w p j1 e :
  tm w !! Topic j = Some p -> p j = (j1, Some e) ->
  Retry j1 < MaxRetry j1 ->
  RetryBackoff j1 <> "exponential"%string ->
  let now := Time_UnixNano (clock w (ticks w)) in
  let job' := fst (fst (process huge j w)) in
  After job' = wrap64 (now + RetryWait j1) /\
  (in_int64 (now + RetryWait j1) -> After job' - now = RetryWait j1).
Proof.
  intros Hp Hr Hlt Hne.
  pose proof (process_retried huge j w p j1 e Hp Hr Hlt) as E.
  cbv zeta in E. cbv zeta. rewrite E. simpl.
  unfold added_wait. apply String.eqb_neq in Hne. rewrite Hne.
  split; [reflexivity |].
  intros Hfit. rewrite (wrap64_small _ Hfit). lia.
Qed.

(** X7.  The exponential wait at [Retry = 1] is [RetryWait] itself, and from
    there each further failure doubles it, up to [Retry = 63] and as long as
    the product fits an int64. *)
Theorem exponential_wait_doubles j :
  1 <= Retry j <= 62 ->
  in_int64 (RetryWait j * 2 ^ Retry j) ->
  exponential_wait huge (set_Retry (Retry j + 1) j) = 2 * exponential_wait huge j /\
  exponential_wait huge (set_Retry 1 j) = wrap64 (RetryWait j).
Proof.
  intros Hr Hfit. rewrite !exponential_wait_eq. simpl.
  assert (Hd1 : wrap64 (Retry j + 1 - 1) = Retry j).
  { replace (Retry j + 1 - 1) with (Retry j) by lia.
    apply wrap64_small. unfold in_int64, int64_min, int64_max. lia. }
  assert (Hd0 : wrap64 (Retry j - 1) = Retry j - 1).
  { apply wrap64_small. unfold in_int64, int64_min, int64_max. lia. }
  rewrite Hd1, Hd0.
  destruct (Z.ltb_spec (Retry j) 0); [lia |].
  destruct (Z.ltb_spec (Retry j) 63); [| lia].
  destruct (Z.ltb_spec (Retry j - 1) 0); [lia |].
  destruct (Z.ltb_spec (Retry j - 1) 63); [| lia].
  assert (Hpow : 2 ^ Retry j = 2 * 2 ^ (Retry j - 1)).
  { replace (Retry j) with (Z.succ (Retry j - 1)) at 1 by lia.
    apply Z.pow_succ_r. lia. }
  assert (Hpos : 0 < 2 ^ (Retry j - 1)) by (apply Z.pow_pos_nonneg; lia).
  split.
  - rewrite (wrap64_small _ Hfit).
    rewrite wrap64_small; [lia |].
    unfold in_int64, int64_min, int64_max in *. nia.
  - change (wrap64 (1 - 1)) with 0. simpl. now rewrite Z.mul_1_r.
Qed.

(** X8.  A record whose [Retry] does not exceed [MaxRetry] keeps that bound
    through an attempt: [Retry] grows by at most one, and only while it is
    below [MaxRetry]. *)
Theorem retry_stays_within_budget j w p :
  tm w !! Topic j = Some p ->
  let j1 := fst (p j) in
  let job' := fst (fst (process huge j w)) in
  Retry j1 <= MaxRetry j1 ->
  in_int64 (Retry j1) -> in_int64 (MaxRetry j1) ->
  Retry job' <= MaxRetry job' /\
  Retry j1 <= Retry job' <= Retry j1 + 1 /\
  (Retry job' = Retry j1 + 1 <-> State job' = Waiting /\ snd (p j) <> None).
Proof.
  intros Hp0. cbv zeta.
  paths j w p' j1 e Hp Hr Hcmp; try discriminate;
    injection Hp0 as <-; rewrite Hr; simpl; intros Hle Hre Hmax.
  - split; [lia |]. split; [lia |].
    split; [lia | intros [Hx _]; discriminate].
  - assert (Hinc : wrap64 (Retry j1 + 1) = Retry j1 + 1).
    { apply wrap64_small. unfold in_int64, int64_min, int64_max in *. lia. }
    rewrite Hinc. split; [lia |]. split; [lia |].
    split; [intros _; split; [reflexivity | discriminate] | reflexivity].
  - split; [lia |]. split; [lia |].
    split; [lia | intros [Hx _]; discriminate].
Qed.

Lemma after_turn_invocations j w :
  invocations (trace (after_turn huge j w)) =
  (if has_processor (tm w) j then [j] else []) ++ invocations (trace w).
Proof.
  unfold after_turn, has_processor.
  paths j w p j1 e Hp Hr Hcmp.
  - destruct (snd (Update _ _)); reflexivity.
  - destruct (snd (Update _ _)); reflexivity.
  - destruct (snd (Update _ _)); reflexivity.
  - reflexivity.
Qed.

(** X9.  [run]'s loop hands every delivered job that has a registered
    handler to that handler exactly once, in delivery order, and no other
    job: an error in one turn neither stops the loop nor repeats a job. *)
Theorem run_invokes_each_job_once (jobc : list Job) w :
  invocations (trace (snd (run_loop huge jobc w))) =
  rev (List.filter (has_processor (tm w)) jobc) ++ invocations (trace w).
Proof.
  revert w. induction jobc as [| j rest IH]; intros w; [reflexivity |].
  rewrite run_loop_turn. cbn [snd]. rewrite IH.
  destruct (after_turn_frame j w) as (Ht & _). rewrite Ht.
  rewrite after_turn_invocations. cbn [List.filter].
  destruct (has_processor (tm w) j); cbn [rev app].
  - now rewrite <- app_assoc.
  - reflexivity.
Qed.

(** X10.  Consuming a sequence of deliveries is consuming its first part and
    then, from the world that leaves, the rest. *)
Theorem run_loop_app (l1 l2 : list Job) w :
  run_loop huge (l1 ++ l2) w =
  (fst (run_loop huge l1 w) ++ fst (run_loop huge l2 (snd (run_loop huge l1 w))),
   snd (run_loop huge l2 (snd (run_loop huge l1 w)))).
Proof.
  revert w. induction l1 as [| j rest IH]; intros w.
  - simpl. unfold ret. simpl. now destruct (run_loop huge l2 w).
  - rewrite <- app_comm_cons, !run_loop_turn, IH. reflexivity.
Qed.

(** X11.  A delivered job with no registered handler: the loop of [run]
    returns the record as delivered, writes the log line with the "no
    processor" error, releases the counter of its rank, and goes on with
    the remaining deliveries; store, clock and hooks are not touched. *)
Theorem run_logs_missing_processor j (rest : list Job) w :
  tm w !! Topic j = None ->
  let wl := mkWorld (tm w) (released (Rank j) (working w)) (st w) (backoff w)
                    (workersWg w)
                    (EvLog (LogJobFailed (ID j) (no_processor (Topic j)))
                     :: trace w)
                    (clock w) (ticks w) in
  run_loop huge (j :: rest) w =
  (j :: fst (run_loop huge rest wl), snd (run_loop huge rest wl)).
Proof.
  intros Hp. cbv zeta. rewrite run_loop_turn. unfold after_turn.
  rewrite (process_no_processor huge j w Hp). reflexivity.
Qed.

Lemma wrap64_sub_wrap (a b : Z) : wrap64 (wrap64 a - b) = wrap64 (a - b).
Proof.
  unfold wrap64. f_equal.
  replace ((a + 2 ^ 63) mod 2 ^ 64 - 2 ^ 63 - b + 2 ^ 63)
    with ((a + 2 ^ 63) mod 2 ^ 64 - b) by lia.
  rewrite Zminus_mod_idemp_l. f_equal. lia.
Qed.

Lemma after_turn_working j w :
  (forall topic p x, tm w !! topic = Some p -> Rank (fst (p x)) = Rank x) ->
  working (after_turn huge j w) = released (Rank j) (working w).
Proof.
  intros Hrank.
  destruct (after_turn_frame j w) as (_ & _ & _ & _ & Hw). rewrite Hw.
  destruct (process_working huge j w) as (Hrel & Hr). rewrite Hrel, Hr.
  destruct (tm w !! Topic j) as [p |] eqn:Hp; [| reflexivity].
  now rewrite (Hrank _ _ j Hp).
Qed.

(** X12.  With handlers that leave [Rank] alone, consuming a sequence of
    deliveries lowers the in-flight counter of each rank by the number of
    delivered jobs of that rank (in Go's int arithmetic, a missing counter
    reading as 0), and leaves the counter of a rank with no delivered job
    as it is, missing if it was missing. *)
Theorem run_releases_one_per_job (jobc : list Job) w (k : Z) :
  (forall topic p x, tm w !! topic = Some p -> Rank (fst (p x)) = Rank x) ->
  let n := length (List.filter (fun x => Rank x =? k) jobc) in
  working (snd (run_loop huge jobc w)) !! k =
  match n with
  | O => working w !! k
  | S _ => Some (wrap64 (default 0 (working w !! k) - Z.of_nat n))
  end.
Proof.
  cbv zeta. revert w. induction jobc as [| j rest IH]; intros w Hrank.
  - reflexivity.
  - rewrite run_loop_turn. cbn [snd].
    destruct (after_turn_frame j w) as (Ht & _).
    assert (Hrank' : forall topic p x, tm (after_turn huge j w) !! topic = Some p ->
                                       Rank (fst (p x)) = Rank x).
    { rewrite Ht. exact Hrank. }
    rewrite (IH _ Hrank'), (after_turn_working j w Hrank). unfold released.
    cbn [List.filter].
    destruct (Z.eqb_spec (Rank j) k) as [-> | Hne].
    + cbn [length]. rewrite lookup_insert_eq. cbn [default].
      destruct (length (List.filter (fun x => Rank x =? k) rest)) as [| m].
      * f_equal; f_equal; lia.
      * unfold id. rewrite wrap64_sub_wrap. f_equal; f_equal; lia.
    + rewrite lookup_insert_ne by exact Hne. reflexivity.
Qed.

(** X13.  A record whose handler fails every time and leaves the record
    alone, delivered again after every attempt while it is [Waiting]: it
    ends [Failed] with [Retry = MaxRetry], after exactly
    [MaxRetry - Retry + 1] invocations of the handler. *)
Theorem failing_job_exhausts_its_budget (d : nat) :
  forall j w p e (fuel : nat),
  tm w !! Topic j = Some p -> (forall x, p x = (x, Some e)) ->
  in_int64 (Retry j) -> in_int64 (MaxRetry j) ->
  MaxRetry j - Retry j = Z.of_nat d -> (d < fuel)%nat ->
  let r := redeliver huge fuel j w in
  State (fst r) = Failed /\
  Retry (fst r) = MaxRetry j /\
  length (invocations (trace (snd r))) =
    (S d + length (invocations (trace w)))%nat.
Proof.
  induction d as [| d IH]; intros j w p e fuel Hp Hfail Hre Hmax Hd Hfuel;
    (destruct fuel as [| fuel]; [lia |]); cbv zeta; cbn [redeliver]; unfold bind.
  - assert (Hle : MaxRetry j <= Retry j) by lia.
    pose proof (process_failed huge j w p j e Hp (Hfail j) Hle) as E.
    cbv zeta in E. rewrite E. simpl. unfold ret. simpl.
    repeat split; try reflexivity; lia.
  - assert (Hlt : Retry j < MaxRetry j) by lia.
    pose proof (process_retried huge j w p j e Hp (Hfail j) Hlt) as E.
    cbv zeta in E. rewrite E. cbn [fst snd State set_Retry set_State].
    assert (Hinc : wrap64 (Retry j + 1) = Retry j + 1).
    { apply wrap64_small. unfold in_int64, int64_min, int64_max in *. lia. }
    match goal with
    | |- context [redeliver huge fuel ?j' ?w'] =>
        specialize (IH j' w' p e fuel)
    end.
    cbv zeta in IH. simpl in IH. rewrite Hinc in IH.
    destruct IH as (Hs & Hr & Hlen); try assumption; try lia.
    { unfold in_int64, int64_min, int64_max in *. lia. }
    simpl. rewrite Hinc. split; [exact Hs |]. split; [exact Hr |].
    rewrite Hlen. simpl. lia.
Qed.

(** X14.  When every delivered job has a handler that returns nil and the
    store accepts every update, the loop of [run] writes no log line,
    returns every record [Succeeded], and calls the "succeeded" hook once
    per job. *)
Theorem run_all_succeed (jobc : list Job) w :
  (forall s x, snd (Update (s : StoreT) x) = None) ->
  (forall x, In x jobc -> exists p, tm w !! Topic x = Some p /\ snd (p x) = None) ->
  let r := run_loop huge jobc w in
  logged (trace (snd r)) = logged (trace w) /\
  Forall (fun x => State x = Succeeded) (fst r) /\
  signals JobSucceeded (trace (snd r)) =
    (length jobc + signals JobSucceeded (trace w))%nat.
Proof.
  intros Hstore. cbv zeta. revert w.
  induction jobc as [| j rest IH]; intros w Hok.
  - simpl. repeat split. constructor.
  - rewrite run_loop_turn. cbn [fst snd].
    destruct (Hok j (or_introl eq_refl)) as (p & Hp & Hnil).
    destruct (p j) as [j1 r0] eqn:Hr. simpl in Hnil. subst r0.
    destruct (after_turn_frame j w) as (Ht & _).
    assert (Hok' : forall x, In x rest ->
               exists q, tm (after_turn huge j w) !! Topic x = Some q /\ snd (q x) = None).
    { intros x Hx. rewrite Ht. apply Hok. now right. }
    destruct (IH _ Hok') as (Hlog & Hall & Hsig).
    rewrite Hlog, Hsig. clear IH Hlog Hsig Hok' Ht.
    assert (Hturn : State (fst (fst (process huge j w))) = Succeeded /\
                    logged (trace (after_turn huge j w)) = logged (trace w) /\
                    signals JobSucceeded (trace (after_turn huge j w)) =
                      S (signals JobSucceeded (trace w))).
    { unfold after_turn.
      pose proof (process_succeeded huge j w p j1 Hp Hr) as E.
      cbv zeta in E. rewrite E. simpl. rewrite Hstore. simpl.
      repeat split; reflexivity. }
    destruct Hturn as (Hs & Hl & Hg). rewrite Hl, Hg.
    split; [reflexivity |]. split; [| simpl; lia].
    constructor; [exact Hs | exact Hall].
Qed.

End Further.

(** ** Concrete runs of the further properties *)

Lemma run_signals_done_once_witness :
  workersWg (snd (run amd64_huge [job_last_retry; job_exhausted] world_failing)) = 0 /\
  length (fst (run amd64_huge [job_last_retry; job_exhausted] world_failing)) = 2%nat.
Proof.
  assert (Hwg : 0 < workersWg world_failing) by (simpl; lia).
  pose proof (run_signals_done_once amd64_huge [job_last_retry; job_exhausted]
                world_failing Hwg) as W.
  cbv zeta in W. destruct W as (Hdone & _ & _ & _ & Hlen).
  split; [rewrite Hdone; reflexivity | exact Hlen].
Defined.

Lemma registered_job_attempted_once_witness :
  let w := world_store_down in
  let j := job_last_retry in
  invocations (trace (snd (process amd64_huge j w))) = [j] /\
  signals JobStarted (trace (snd (process amd64_huge j w))) = 1%nat /\
  length (updates (trace (snd (process amd64_huge j w)))) = 1%nat.
Proof.
  cbv zeta.
  pose proof (registered_job_attempted_once amd64_huge job_last_retry
                world_store_down handler_ok eq_refl) as W.
  cbv zeta in W. destruct W as (Hi & Hs & Hu & _).
  rewrite Hi, Hs, Hu. repeat split; reflexivity.
Defined.

Lemma failure_hooks_ignore_update_witness :
  let w := world_failing_store_down in
  signals JobFailed (trace (snd (process amd64_huge job_exhausted w))) = 1%nat /\
  signals JobRetry (trace (snd (process amd64_huge job_last_retry w))) = 1%nat /\
  snd (fst (process amd64_huge job_exhausted w)) = Some "store is down"%string.
Proof.
  cbv zeta.
  pose proof (failure_hooks_ignore_update amd64_huge job_exhausted
                world_failing_store_down handler_fails job_exhausted
                "boom"%string eq_refl eq_refl) as W1.
  pose proof (failure_hooks_ignore_update amd64_huge job_last_retry
                world_failing_store_down handler_fails job_last_retry
                "boom"%string eq_refl eq_refl) as W2.
  cbv zeta in W1, W2.
  destruct W1 as (Hf & _). destruct W2 as (_ & Hr & _).
  rewrite Hf, Hr. repeat split; reflexivity.
Defined.

Lemma flat_wait_ignores_retry_witness :
  let w := world_failing in
  let j := job_capitalised in
  After (fst (fst (process amd64_huge j w))) - Time_UnixNano (clock w (ticks w))
    = 1000.
Proof.
  cbv zeta.
  assert (Hlt : Retry job_capitalised < MaxRetry job_capitalised) by (simpl; lia).
  assert (Hne : RetryBackoff job_capitalised <> "exponential"%string)
    by (simpl; discriminate).
  pose proof (flat_wait_ignores_retry amd64_huge job_capitalised world_failing
                handler_fails job_capitalised "boom"%string
                eq_refl eq_refl Hlt Hne) as W.
  cbv zeta in W. destruct W as (_ & Hflat).
  apply Hflat. vm_compute. split; discriminate.
Defined.

Lemma exponential_wait_doubles_witness :
  exponential_wait amd64_huge (set_Retry 4 job_third_try) = 8000 /\
  exponential_wait amd64_huge (set_Retry 1 job_third_try) = 1000.
Proof.
  assert (Hr : 1 <= Retry job_third_try <= 62) by (simpl; lia).
  assert (Hfit : in_int64 (RetryWait job_third_try * 2 ^ Retry job_third_try)).
  { vm_compute. split; discriminate. }
  pose proof (exponential_wait_doubles amd64_huge job_third_try Hr Hfit) as W.
  destruct W as (Hd & H1).
  split; [| rewrite H1; reflexivity].
  change (set_Retry 4 job_third_try)
    with (set_Retry (Retry job_third_try + 1) job_third_try).
  rewrite Hd. reflexivity.
Defined.

Lemma retry_stays_within_budget_witness :
  let w := world_failing in
  let j := job_last_retry in
  Retry (fst (fst (process amd64_huge j w)))
    <= MaxRetry (fst (fst (process amd64_huge j w))).
Proof.
  cbv zeta.
  assert (Hle : Retry (fst (handler_fails job_last_retry))
                <= MaxRetry (fst (handler_fails job_last_retry))) by (simpl; lia).
  assert (Hre : in_int64 (Retry (fst (handler_fails job_last_retry)))).
  { vm_compute. split; discriminate. }
  assert (Hmax : in_int64 (MaxRetry (fst (handler_fails job_last_retry)))).
  { vm_compute. split; discriminate. }
  pose proof (retry_stays_within_budget amd64_huge job_last_retry world_failing
                handler_fails eq_refl Hle Hre Hmax) as W.
  cbv zeta in W. destruct W as (Hb & _). exact Hb.
Defined.

Lemma run_logs_missing_processor_witness :
  let r := run_loop amd64_huge [job_unknown_topic; job_last_retry] world_working in
  logged (trace (snd r))
    = [LogJobFailed "job-3" "no processor found for topic resize-image"]%string /\
  map State (fst r) = [Waiting; Succeeded].
Proof.
  cbv zeta.
  pose proof (run_logs_missing_processor amd64_huge job_unknown_topic
                [job_last_retry] world_working eq_refl) as W.
  cbv zeta in W. rewrite W. split; reflexivity.
Defined.

Lemma run_releases_one_per_job_witness :
  let w' := snd (run_loop amd64_huge [job_last_retry; job_rank2; job_exhausted]
                          world_failing) in
  working w' !! 1 = Some 0 /\ working w' !! 2 = Some (-1) /\ working w' !! 3 = None.
Proof.
  cbv zeta.
  assert (Hrank : forall topic p x, tm world_failing !! topic = Some p ->
                                    Rank (fst (p x)) = Rank x).
  { intros topic p x Hp.
    unfold world_failing, sample_world, failing_handlers in Hp. simpl in Hp.
    apply lookup_singleton_Some in Hp. destruct Hp as [_ <-]. reflexivity. }
  pose proof (run_releases_one_per_job amd64_huge
                [job_last_retry; job_rank2; job_exhausted] world_failing) as W.
  rewrite (W 1 Hrank), (W 2 Hrank), (W 3 Hrank).
  repeat split; reflexivity.
Defined.

(** A job with [MaxRetry = 3] whose handler always fails: four attempts. *)
Lemma failing_job_exhausts_its_budget_witness :
  let r := redeliver amd64_huge 10 job_plain world_failing in
  State (fst r) = Failed /\ Retry (fst r) = 3 /\
  length (invocations (trace (snd r))) = 4%nat.
Proof.
  cbv zeta.
  assert (Hre : in_int64 (Retry job_plain)) by (vm_compute; split; discriminate).
  assert (Hmax : in_int64 (MaxRetry job_plain)) by (vm_compute; split; discriminate).
  assert (Hfuel : (3 < 10)%nat) by lia.
  pose proof (failing_job_exhausts_its_budget amd64_huge 3 job_plain world_failing
                handler_fails "boom"%string 10%nat eq_refl
                (fun x => eq_refl) Hre Hmax eq_refl Hfuel) as W.
  cbv zeta in W. exact W.
Defined.

Lemma run_all_succeed_witness :
  let r := run_loop amd64_huge [job_last_retry; job_plain] world_working in
  logged (trace (snd r)) = [] /\
  Forall (fun x => State x = Succeeded) (fst r) /\
  signals JobSucceeded (trace (snd r)) = 2%nat.
Proof.
  cbv zeta.
  assert (Hstore : forall (s : MemStore) x, snd (Update s x) = None)
    by (intros; reflexivity).
  assert (Hok : forall x, In x [job_last_retry; job_plain] ->
            exists p, tm world_working !! Topic x = Some p /\ snd (p x) = None).
  { intros x [<- | [<- | []]]; exists handler_ok; split; reflexivity. }
  exact (run_all_succeed amd64_huge [job_last_retry; job_plain]
           world_working Hstore Hok).
Defined.

(** On the retry path the two clock samples differ: [After] is built on the
    first, [Priority] on the second. *)
Lemma process_clock_reads_witness :
  let w := world_failing in
  let j := job_last_retry in
  ticks (snd (process amd64_huge j w)) = 2%nat /\
  After (fst (fst (process amd64_huge j w))) = sample_clock 0 + 1000 /\
  Priority (fst (fst (process amd64_huge j w))) = - (sample_clock 1 + 5000).
Proof.
  cbv zeta.
  pose proof (process_clock_reads amd64_huge job_last_retry world_failing) as W.
  cbv zeta in W.
  remember (process amd64_huge job_last_retry world_failing) as r eqn:Er.
  destruct W as (Ht & Hrec).
  change (tm world_failing !! Topic job_last_retry) with (Some handler_fails)
    in Ht, Hrec.
  simpl in Ht, Hrec. destruct Hrec as (Ha & Hp).
  split; [exact Ht |].
  split; [rewrite Ha | rewrite Hp]; vm_compute; reflexivity.
Defined.
